(** * Namespace rewriter: [fix-namespaces.py] and [fix-ns.py]

    A shallow embedding of the two scripts under
    [src/example/People.Application/] and of the fragments of the Python
    library they call ([re.sub], text-mode [open], [os.walk],
    [Path.rglob]), followed by the properties of the rewriting. *)

From Stdlib Require Import NArith ZArith Ascii String.
From Stdlib.Strings Require Import Byte.
From stdpp Require Import base tactics option list strings.

Local Open Scope N_scope.
Local Open Scope nat_scope.
Local Open Scope list_scope.

(** ** Text *)

(** A Python [str] is a sequence of Unicode code points. *)
Definition char := N.
Definition text := list char.

Definition ord (a : ascii) : char := N_of_ascii a.

(** The code points of an ASCII string literal of the source. *)
Definition lit (s : string) : text := ord <$> list_ascii_of_string s.

(** ** Exceptions *)

(** The exceptions of the library calls.  [OSError] stands for the errors
    of the operating system that have no class of their own: no space left
    on the device, quota or file size limit exceeded. *)
Inductive exn :=
| ReError
| FileNotFoundError
| PermissionError
| IsADirectoryError
| NotADirectoryError
| UnicodeDecodeError
| UnicodeEncodeError
| OSError.

Inductive result (A : Type) :=
| Ok (a : A)
| Raise (e : exn).
Arguments Ok {A} a.
Arguments Raise {A} e.

Global Instance exn_eq_dec : EqDecision exn.
Proof. solve_decision. Defined.

Global Instance result_eq_dec {A} `{EqDecision A} : EqDecision (result A).
Proof. solve_decision. Defined.

Definition bind {A B} (m : result A) (k : A → result B) : result B :=
  match m with
  | Ok a => k a
  | Raise e => Raise e
  end.

Notation "x ←! m ; k" := (bind m (λ x, k))
  (at level 20, m at level 100, k at level 200, right associativity,
   format "x  ←!  m ;  '/' k").

(** ** The fragment of [re] the scripts use

    A pattern of the fragment is a sequence of items, each matching one
    character: an ordinary character, an escaped character, or an unescaped
    dot.  Quantifiers, groups, classes, anchors and alternation are outside
    it, as are the special sequences [\d], [\w], [\1], ... *)

Inductive atom :=
| Chr (c : char)
| Dot.

Definition regex := list atom.

Definition backslash : char := 92%N.
Definition dot : char := 46%N.
Definition newline : char := 10%N.

(** The characters [sre_parse] treats specially (its [SPECIAL_CHARS]),
    apart from the dot and the backslash. *)
Definition is_operator (c : char) : bool :=
  bool_decide (c ∈ lit "[{()*+?^$|").

Definition is_ascii_alnum (c : char) : bool :=
  ((48 <=? c) && (c <=? 57) || (65 <=? c) && (c <=? 90)
   || (97 <=? c) && (c <=? 122))%N.

(** [re.compile] on the fragment.  [None] stands for a pattern that is
    outside the fragment or that [re] rejects. *)
Fixpoint re_compile (p : text) : option regex :=
  match p with
  | [] => Some []
  | c :: p' =>
    if bool_decide (c = backslash) then
      match p' with
      | [] => None
      | e :: p'' =>
        if is_ascii_alnum e then None
        else cons (Chr e) <$> re_compile p''
      end
    else if bool_decide (c = dot) then cons Dot <$> re_compile p'
    else if is_operator c then None
    else cons (Chr c) <$> re_compile p'
  end.

(** Without [re.DOTALL] the dot matches any character but a newline. *)
Definition atom_matches (a : atom) (c : char) : bool :=
  match a with
  | Chr x => bool_decide (x = c)
  | Dot => negb (bool_decide (c = newline))
  end.

(** Match the whole regex at the start of [s]; the result is what follows
    the match. *)
Fixpoint match_here (rx : regex) (s : text) : option text :=
  match rx, s with
  | [], _ => Some s
  | _ :: _, [] => None
  | a :: rx', c :: s' => if atom_matches a c then match_here rx' s' else None
  end.

(** The replacement template of [re.sub]: a template without a backslash
    stands for itself; group references and escapes are outside the
    fragment. *)
Definition expand_template (repl : text) : option text :=
  if bool_decide (backslash ∈ repl) then None else Some repl.

(** The scan of [re.sub]: left to right, the leftmost match at or after the
    cursor is replaced and the cursor moves past it.  [skip] counts the
    characters of the current match still to be consumed.  An empty match
    is replaced and the character after it is copied. *)
Fixpoint sub_from (rx : regex) (repl : text) (skip : nat) (s : text) : text :=
  match s with
  | [] =>
    match skip, match_here rx [] with
    | O, Some _ => repl
    | _, _ => []
    end
  | c :: s' =>
    match skip with
    | S k => sub_from rx repl k s'
    | O =>
      match match_here rx s with
      | Some _ =>
        repl ++ match length rx with
                | O => c :: sub_from rx repl 0 s'
                | S k => sub_from rx repl k s'
                end
      | None => c :: sub_from rx repl 0 s'
      end
    end
  end.

(** [re.sub(pattern, repl, string)] *)
Definition re_sub (pattern repl s : text) : result text :=
  match re_compile pattern, expand_template repl with
  | Some rx, Some r => Ok (sub_from rx r 0 s)
  | _, _ => Raise ReError
  end.

(** ** The rules of the scripts *)

(** [replacements] of [fix-namespaces.py]; the raw strings keep their
    backslashes. *)
Definition replacements : list (text * text) :=
  [ (lit "using Core\.Libraries\.Application\.Commands;",
     lit "using Core.LibrariesApplication.Commands;");
    (lit "using Core\.Libraries\.Application\.Queries;",
     lit "using Core.LibrariesApplication.Queries;");
    (lit "using Techleap\.Core\.Domain\.Exceptions;",
     lit "using Core.Libraries.Domain.Exceptions;") ].

(** The loop [for pattern, replacement in replacements:
    content = re.sub(pattern, replacement, content)]. *)
Fixpoint apply_rules (rules : list (text * text)) (content : text)
  : result text :=
  match rules with
  | [] => Ok content
  | (pattern, replacement) :: rules' =>
    content' ←! re_sub pattern replacement content;
    apply_rules rules' content'
  end.

(** The three assignments of [fix_file] in [fix-ns.py]. *)
Definition fix_file_rules (content : text) : result text :=
  content ←! re_sub (lit "using Core\.Libraries\.Application\.Commands;")
                    (lit "using Core.LibrariesApplication.Commands;") content;
  content ←! re_sub (lit "using Core\.Libraries\.Application\.Queries;")
                    (lit "using Core.LibrariesApplication.Queries;") content;
  content ←! re_sub (lit "using Techleap\.Core\.Domain\.Exceptions;")
                    (lit "using Core.Libraries.Domain.Exceptions;") content;
  Ok content.

(** ** Plain replacement

    [str.replace(old, new)]: every non-overlapping occurrence of the
    literal [old], leftmost first.  The recursion is on a fuel that bounds
    the length of the text still to be read. *)
Fixpoint replace_fuel (fuel : nat) (old new s : text) : text :=
  match fuel, s with
  | O, _ => s
  | S _, [] => []
  | S fuel', c :: s' =>
    if bool_decide (old `prefix_of` s)
    then new ++ replace_fuel fuel' old new (drop (length old) s)
    else c :: replace_fuel fuel' old new s'
  end.

Definition replace_all (old new s : text) : text :=
  match old with
  | [] => new ++ mjoin ((λ c, c :: new) <$> s)
  | _ :: _ => replace_fuel (length s) old new s
  end.

(** Plain replacements one after the other, in list order. *)
Definition replace_each (rules : list (text * text)) (s : text) : text :=
  foldl (λ acc rule, replace_all rule.1 rule.2 acc) s rules.

(** The literals the three patterns stand for. *)
Definition literal_rules : list (text * text) :=
  [ (lit "using Core.Libraries.Application.Commands;",
     lit "using Core.LibrariesApplication.Commands;");
    (lit "using Core.Libraries.Application.Queries;",
     lit "using Core.LibrariesApplication.Queries;");
    (lit "using Techleap.Core.Domain.Exceptions;",
     lit "using Core.Libraries.Domain.Exceptions;") ].

(** ** Occurrences and statement terminators *)

(** [p] occurs in [s] as a contiguous run. *)
Definition occurs (p s : text) : Prop := ∃ a b, s = a ++ p ++ b.

(** [w] ends with [c] and holds no other [c]. *)
Definition terminated (c : char) (w : text) : Prop :=
  last w = Some c ∧ c ∉ removelast w.

Global Instance terminated_dec c w : Decision (terminated c w).
Proof. unfold terminated. apply _. Defined.

(** Neither word is a suffix of the other. *)
Definition apart (q w : text) : Prop :=
  ¬ q `suffix_of` w ∧ ¬ w `suffix_of` q.

Global Instance apart_dec q w : Decision (apart q w).
Proof. unfold apart. apply _. Defined.

(** A rule list whose patterns and replacements all end with the one
    terminator [c], where no pattern can end where a replacement or another
    pattern ends. *)
Definition separated (c : char) (rules : list (text * text)) : Prop :=
  Forall (λ rule, terminated c rule.1 ∧ terminated c rule.2) rules
  ∧ Forall (λ rule, Forall (λ rule', apart rule.1 rule'.2) rules) rules
  ∧ Forall (λ rule, Forall (λ rule',
        rule = rule' ∨ apart rule.1 rule'.1) rules) rules.

Global Instance separated_dec c rules : Decision (separated c rules).
Proof. unfold separated. apply _. Defined.

Definition semicolon : char := 59%N.

(** What [rewrite] does to a text that ends at its first terminator. *)
Definition rewrite_chunk (p r k : text) : text :=
  if decide (p `suffix_of` k)
  then take (length k - length p) k ++ r
  else k.

(** The literal a pattern stands for when none of its items is an
    unescaped dot. *)
Definition atom_literal (a : atom) : option char :=
  match a with
  | Chr c => Some c
  | Dot => None
  end.

Definition pattern_literal (p : text) : option text :=
  re_compile p ≫= mapM atom_literal.

Definition literalise (rule : text * text) : text * text :=
  (default [] (pattern_literal rule.1), rule.2).

(** A rule of the fragment whose pattern stands for a literal that is not
    empty. *)
Definition literal_rule (rule : text * text) : Prop :=
  is_Some (pattern_literal rule.1) ∧ pattern_literal rule.1 ≠ Some []
  ∧ backslash ∉ rule.2.

Global Instance literal_rule_dec rule : Decision (literal_rule rule).
Proof. unfold literal_rule. apply _. Defined.

(** "Replacing all non-overlapping matches": the text is read from the
    left; where the pattern matches, the match is replaced and reading goes
    on after it; elsewhere one character is copied. *)
Inductive replaces_all (rx : regex) (repl : text) : text → text → Prop :=
| replaces_end :
    replaces_all rx repl [] []
| replaces_match m rest out :
    m ≠ [] → match_here rx (m ++ rest) = Some rest →
    replaces_all rx repl rest out →
    replaces_all rx repl (m ++ rest) (repl ++ out)
| replaces_copy c s out :
    match_here rx (c :: s) = None →
    replaces_all rx repl s out →
    replaces_all rx repl (c :: s) (c :: out).

(** One rule after the other, each on the output of the one before. *)
Inductive rewrites_in_order : list (text * text) → text → text → Prop :=
| rewrites_nil s :
    rewrites_in_order [] s s
| rewrites_cons pattern repl rx rules s s1 s' :
    re_compile pattern = Some rx →
    replaces_all rx repl s s1 →
    rewrites_in_order rules s1 s' →
    rewrites_in_order ((pattern, repl) :: rules) s s'.

(** "Replacing all non-overlapping matches" in the words of the
    documentation of [re.sub], for a pattern that stands for the literal
    [old]: a text without occurrence of [old] stays as it is; otherwise the
    leftmost occurrence is replaced by [new], what stands before it is kept,
    and the same is done with what comes after it.  Occurrences are plain
    equalities of texts; no matcher is involved. *)
Definition leftmost (old a rest : text) : Prop :=
  ∀ a' rest', a ++ old ++ rest = a' ++ old ++ rest' → length a ≤ length a'.

Inductive replaces_occurrences (old new : text) : text → text → Prop :=
| occurrences_none s :
    ¬ occurs old s → replaces_occurrences old new s s
| occurrences_leftmost a rest out :
    leftmost old a rest →
    replaces_occurrences old new rest out →
    replaces_occurrences old new (a ++ old ++ rest) (a ++ new ++ out).

(** [re.search(pattern, s)] finds something. *)
Definition has_match (pattern s : text) : Prop :=
  ∃ rx a b rest,
    re_compile pattern = Some rx ∧ s = a ++ b ∧ match_here rx b = Some rest.

(** A Unicode scalar value: what a decoded text holds and what can be
    encoded. *)
Definition valid_char (c : char) : Prop :=
  (c < 1114112)%N ∧ ¬ (55296 ≤ c ≤ 57343)%N.

(** ** Files as text

    [open(path, 'r', encoding='utf-8')] decodes strictly and translates
    every line ending to a line feed; [open(path, 'w', encoding='utf-8')]
    encodes and, on a POSIX host, writes line feeds as they are. *)

Definition bytes := list Byte.byte.

Definition byte_of (n : N) : Byte.byte := default Byte.x00 (Byte.of_N n).

Definition is_continuation (n : N) : bool := ((128 <=? n) && (n <=? 191))%N.

Definition in_range (lo hi n : N) : bool := ((lo <=? n) && (n <=? hi))%N.

Fixpoint utf8_decode (bs : bytes) : option text :=
  match bs with
  | [] => Some []
  | b0 :: r0 =>
    let n0 := Byte.to_N b0 in
    if (n0 <? 128)%N then cons n0 <$> utf8_decode r0
    else if in_range 194 223 n0 then
      match r0 with
      | b1 :: r1 =>
        let n1 := Byte.to_N b1 in
        if is_continuation n1
        then cons ((n0 - 192) * 64 + (n1 - 128))%N <$> utf8_decode r1
        else None
      | _ => None
      end
    else if in_range 224 239 n0 then
      match r0 with
      | b1 :: b2 :: r2 =>
        let n1 := Byte.to_N b1 in
        let n2 := Byte.to_N b2 in
        if in_range (if (n0 =? 224)%N then 160 else 128)
                    (if (n0 =? 237)%N then 159 else 191) n1
           && is_continuation n2
        then cons ((n0 - 224) * 4096 + (n1 - 128) * 64 + (n2 - 128))%N
               <$> utf8_decode r2
        else None
      | _ => None
      end
    else if in_range 240 244 n0 then
      match r0 with
      | b1 :: b2 :: b3 :: r3 =>
        let n1 := Byte.to_N b1 in
        let n2 := Byte.to_N b2 in
        let n3 := Byte.to_N b3 in
        if in_range (if (n0 =? 240)%N then 144 else 128)
                    (if (n0 =? 244)%N then 143 else 191) n1
           && is_continuation n2 && is_continuation n3
        then cons ((n0 - 240) * 262144 + (n1 - 128) * 4096
                   + (n2 - 128) * 64 + (n3 - 128))%N
               <$> utf8_decode r3
        else None
      | _ => None
      end
    else None
  end.

Definition carriage_return : char := 13%N.

(** Universal newlines: CR LF and a lone CR are read as LF. *)
Fixpoint universal_newlines (s : text) : text :=
  match s with
  | [] => []
  | c :: s' =>
    if bool_decide (c = carriage_return) then
      newline :: match s' with
                 | [] => []
                 | c' :: s'' =>
                   if bool_decide (c' = newline) then universal_newlines s''
                   else universal_newlines s'
                 end
    else c :: universal_newlines s'
  end.

Definition utf8_encode_char (c : char) : option bytes :=
  if (c <? 128)%N then Some [byte_of c]
  else if (c <? 2048)%N then
    Some [byte_of (192 + c / 64); byte_of (128 + c mod 64)]%N
  else if (c <? 65536)%N then
    if in_range 55296 57343 c then None
    else Some [byte_of (224 + c / 4096); byte_of (128 + (c / 64) mod 64);
               byte_of (128 + c mod 64)]%N
  else if (c <? 1114112)%N then
    Some [byte_of (240 + c / 262144); byte_of (128 + (c / 4096) mod 64);
          byte_of (128 + (c / 64) mod 64); byte_of (128 + c mod 64)]%N
  else None.

Definition utf8_encode (s : text) : option bytes :=
  mjoin <$> mapM utf8_encode_char s.

(** ** The file tree *)

Definition name := string.

(** A path is the list of the names from the root down. *)
Definition path := list name.

(** A file holds bytes and may be open to reading and to writing; [room]
    is the number of bytes the file system lets it grow to (a full device,
    a quota, a file size limit), [None] when it takes whatever is written. *)
#[warnings="-register-all"]
Inductive node :=
| File (data : bytes) (readable writable : bool) (room : option nat)
| Dir (listable : bool) (entries : list (name * node)).

Definition is_dir (n : node) : bool :=
  match n with
  | Dir _ _ => true
  | File _ _ _ _ => false
  end.

(** The root directory of a run; [None] when it does not exist. *)
Definition tree := option node.

Fixpoint find_entry (nm : name) (es : list (name * node)) : option node :=
  match es with
  | [] => None
  | (nm', n) :: es' =>
    if bool_decide (nm' = nm) then Some n else find_entry nm es'
  end.

Fixpoint update_entry (nm : name) (f : node → node)
    (es : list (name * node)) : list (name * node) :=
  match es with
  | [] => []
  | (nm', n) :: es' =>
    if bool_decide (nm' = nm) then (nm', f n) :: es'
    else (nm', n) :: update_entry nm f es'
  end.

Fixpoint lookup_path (n : node) (p : path) : result node :=
  match p with
  | [] => Ok n
  | nm :: p' =>
    match n with
    | File _ _ _ _ => Raise NotADirectoryError
    | Dir _ es =>
      match find_entry nm es with
      | Some child => lookup_path child p'
      | None => Raise FileNotFoundError
      end
    end
  end.

(** The file at [p] holds [d]; everything else is as it was. *)
Fixpoint set_data (n : node) (p : path) (d : bytes) : node :=
  match p with
  | [] =>
    match n with
    | File _ r w m => File d r w m
    | Dir _ _ => n
    end
  | nm :: p' =>
    match n with
    | File _ _ _ _ => n
    | Dir l es => Dir l (update_entry nm (λ child, set_data child p' d) es)
    end
  end.

Definition stat (t : tree) (p : path) : result node :=
  match t with
  | None => Raise FileNotFoundError
  | Some n => lookup_path n p
  end.

(** [open(p, 'r')] and [f.read()] up to decoding. *)
Definition read_bytes (t : tree) (p : path) : result bytes :=
  n ←! stat t p;
  match n with
  | Dir _ _ => Raise IsADirectoryError
  | File d r _ _ => if r then Ok d else Raise PermissionError
  end.

Definition decode (d : bytes) : result text :=
  match utf8_decode d with
  | Some s => Ok (universal_newlines s)
  | None => Raise UnicodeDecodeError
  end.

Definition encode (s : text) : result bytes :=
  match utf8_encode s with
  | Some d => Ok d
  | None => Raise UnicodeEncodeError
  end.

Definition store (t : tree) (p : path) (d : bytes) : tree :=
  (λ n, set_data n p d) <$> t.

(** [open(p, 'w')] of a file that exists: the file is emptied.  The scripts
    open for writing only what they have just read; creating a file is not
    modelled. *)
Definition open_w (t : tree) (p : path) : result tree :=
  n ←! stat t p;
  match n with
  | Dir _ _ => Raise IsADirectoryError
  | File _ _ w _ => if w then Ok (store t p []) else Raise PermissionError
  end.

(** The file system takes the bytes [d] for a file with room [m]. *)
Definition fits (m : option nat) (d : bytes) : bool :=
  match m with
  | Some n => bool_decide (length d ≤ n)
  | None => true
  end.

(** [f.write(content)] up to the flush at the end of the [with] block, for
    the bytes of the encoded content: the bytes that find room are written;
    when some do not, [OSError] is raised and the file keeps the bytes that
    were written. *)
Definition write (t : tree) (p : path) (d : bytes) : result () * tree :=
  match stat t p with
  | Ok (File _ _ _ (Some n)) =>
    if fits (Some n) d then (Ok (), store t p d)
    else (Raise OSError, store t p (take n d))
  | _ => (Ok (), store t p d)
  end.


Definition read_text (t : tree) (p : path) : result text :=
  d ←! read_bytes t p; decode d.

(** ** The body of the [try] block

    Both scripts read the file, rewrite its text, compare, and write it
    back when it differs.  The result is whether the file was written,
    or the exception raised, and the tree as it is left: an exception
    raised once the file is open for writing leaves it emptied or with
    the bytes written so far. *)
Definition process (rewrite : text → result text) (t : tree) (p : path)
  : result bool * tree :=
  match (d ←! read_bytes t p; original ←! decode d;
         content ←! rewrite original; Ok (original, content)) with
  | Raise e => (Raise e, t)
  | Ok (original, content) =>
    if bool_decide (content ≠ original) then
      match open_w t p with
      | Raise e => (Raise e, t)
      | Ok t' =>
        match encode content with
        | Raise e => (Raise e, t')
        | Ok d =>
          match write t' p d with
          | (Raise e, t'') => (Raise e, t'')
          | (Ok _, t'') => (Ok true, t'')
          end
        end
      end
    else (Ok false, t)
  end.

(** ** Output *)

(** One constructor per [print] of the scripts.  Printing is taken to
    succeed: the streams take every line, so that it makes no difference to
    a run that [fix-namespaces.py] prints its [Fixed:] line as the last
    statement of the [try] block. *)
Inductive line :=
| FoundFiles (n : nat)
| FixedPath (p : path)
| ErrorProcessing (p : path) (e : exn)
| DoneLine
| FixedCount (n : nat).

Record world := World {
  files : tree;
  stdout : list line;
  stderr : list line;
}.

Definition endswith (s suffix : string) : bool :=
  bool_decide (list_ascii_of_string suffix
               `suffix_of` list_ascii_of_string s).




Definition written (entry : path * result bool) : Prop := entry.2 = Ok true.

Global Instance written_dec entry : Decision (written entry).
Proof. unfold written. solve_decision. Defined.

Definition is_error_line (l : line) : Prop :=
  match l with
  | ErrorProcessing _ _ => True
  | _ => False
  end.

Global Instance is_error_line_dec l : Decision (is_error_line l).
Proof. destruct l; simpl; apply _. Defined.

(** ** [fix-ns.py] *)

Definition fix_file (w : world) (filepath : path) : bool * world :=
  match process fix_file_rules (files w) filepath with
  | (Ok changed, t) => (changed, World t (stdout w) (stderr w))
  | (Raise e, t) =>
    (false, World t (stdout w) (stderr w ++ [ErrorProcessing filepath e]))
  end.

(** [os.scandir]: the entries of a directory that can be listed. *)
Definition scandir (n : node) : result (list (name * node)) :=
  match n with
  | File _ _ _ _ => Raise NotADirectoryError
  | Dir l es => if l then Ok es else Raise PermissionError
  end.

(** [os.walk(top)], top down and with the default [onerror=None]: a
    directory that cannot be listed is passed over in silence.  Each item
    is a directory with the names of its subdirectories and of its other
    entries. *)
Fixpoint walk (top : path) (n : node)
  : list (path * list name * list name) :=
  match n with
  | File _ _ _ _ => []
  | Dir l es =>
    if l then
      (top, (filter (λ e, is_dir e.2 = true) es).*1,
            (filter (λ e, is_dir e.2 = false) es).*1)
      :: (fix go (es : list (name * node)) :=
            match es with
            | [] => []
            | (nm, child) :: es' =>
              (if is_dir child then walk (top ++ [nm]) child else [])
              ++ go es'
            end) es
    else []
  end.

Definition os_walk (t : tree) : list (path * list name * list name) :=
  match t with
  | None => []
  | Some n => walk [] n
  end.

(** The paths [fix_file] is called on, in order. *)
Definition cs_paths (t : tree) : list path :=
  '(root, _, files) ← os_walk t;
  (λ file, root ++ [file]) <$> filter (λ file, endswith file ".cs" = true) files.

(** The loop of the main block: the files left to visit, the world and
    the counter [fixed]. *)
Fixpoint fix_each (ps : list path) (w : world) (fixed : nat) : world * nat :=
  match ps with
  | [] => (w, fixed)
  | filepath :: ps' =>
    let '(changed, w') := fix_file w filepath in
    fix_each ps' w' (if changed then fixed + 1 else fixed)
  end.

(** A run ends with the process status; no exception leaves [os.walk] or
    [fix_file], so the status is that of a script that ran to its end. *)
Definition main_fix_ns (t : tree) : world * Z :=
  let '(w, fixed) := fix_each (cs_paths t) (World t [] []) 0 in
  (World (files w) (stdout w ++ [FixedCount fixed]) (stderr w), 0%Z).

(** ** [fix-namespaces.py] *)

(** [Path.rglob('*.cs')]: every entry, file or directory, whose name ends
    in [.cs], directory by directory from the root down; a root that is
    missing or not a directory gives nothing, and a directory that cannot be
    listed is passed over. *)
Fixpoint rglob_cs (top : path) (n : node) : list path :=
  match n with
  | File _ _ _ _ => []
  | Dir l es =>
    if l then
      ((λ e, top ++ [e.1]) <$> filter (λ e, endswith e.1 ".cs" = true) es)
      ++ (fix go (es : list (name * node)) :=
            match es with
            | [] => []
            | (nm, child) :: es' =>
              (if is_dir child then rglob_cs (top ++ [nm]) child else [])
              ++ go es'
            end) es
    else []
  end.

Definition cs_files (t : tree) : list path :=
  match t with
  | None => []
  | Some n => rglob_cs [] n
  end.

(** The body of the [for] loop. *)
Definition process_cs_file (w : world) (cs_file : path) : world :=
  match process (apply_rules replacements) (files w) cs_file with
  | (Ok true, t) => World t (stdout w ++ [FixedPath cs_file]) (stderr w)
  | (Ok false, t) => World t (stdout w) (stderr w)
  | (Raise e, t) =>
    World t (stdout w ++ [ErrorProcessing cs_file e]) (stderr w)
  end.

Definition main_fix_namespaces (t : tree) : world * Z :=
  let cs := cs_files t in
  let w := World t [FoundFiles (length cs)] [] in
  let w := foldl process_cs_file w cs in
  (World (files w) (stdout w ++ [DoneLine]) (stderr w), 0%Z).

(** * Properties of the rewriting *)

(** ** The scan of [re.sub] *)

Lemma match_here_literal old s rest :
  match_here (Chr <$> old) s = Some rest ↔ s = old ++ rest.
Proof.
  revert s. induction old as [|x old IH]; intros s; simpl.
  - naive_solver.
  - destruct s as [|c s]; [naive_solver|].
    case_bool_decide; subst; [rewrite IH|]; naive_solver.
Qed.

Lemma match_here_literal_None old s :
  match_here (Chr <$> old) s = None ↔ ¬ old `prefix_of` s.
Proof.
  split.
  - intros H [rest ->].
    by rewrite (proj2 (match_here_literal old _ rest) eq_refl) in H.
  - intros H. destruct (match_here _ s) as [rest|] eqn:E; [|done].
    apply match_here_literal in E. destruct H. by exists rest.
Qed.

Lemma sub_from_skip rx repl k s :
  rx ≠ [] → sub_from rx repl k s = sub_from rx repl 0 (drop k s).
Proof.
  intros Hrx. revert k. induction s as [|c s IH]; intros [|k]; simpl; try done.
  by destruct rx.
Qed.

Lemma sub_from_nil rx repl : rx ≠ [] → sub_from rx repl 0 [] = [].
Proof. by destruct rx. Qed.

Lemma sub_from_hit old repl rest :
  old ≠ [] →
  sub_from (Chr <$> old) repl 0 (old ++ rest)
  = repl ++ sub_from (Chr <$> old) repl 0 rest.
Proof.
  intros Hold. destruct old as [|x old]; [done|]. simpl.
  rewrite bool_decide_eq_true_2 by done.
  change (list_fmap char atom Chr old) with (Chr <$> old).
  rewrite (proj2 (match_here_literal old (old ++ rest) rest) eq_refl).
  f_equal. rewrite length_fmap.
  rewrite (sub_from_skip (Chr x :: (Chr <$> old))) by done.
  by rewrite drop_app_length.
Qed.

Lemma sub_from_miss old repl c s :
  ¬ old `prefix_of` (c :: s) →
  sub_from (Chr <$> old) repl 0 (c :: s)
  = c :: sub_from (Chr <$> old) repl 0 s.
Proof.
  intros H%match_here_literal_None. cbn [sub_from]. by rewrite H.
Qed.

(** ** Plain replacement: its three equations *)

Lemma replace_fuel_enough n m old new s :
  old ≠ [] → length s ≤ n → length s ≤ m →
  replace_fuel n old new s = replace_fuel m old new s.
Proof.
  intros Hold. revert m s.
  induction n as [|n IH]; intros m s Hn Hm.
  - destruct s; [|simpl in Hn; lia]. by destruct m.
  - destruct s as [|c s]; [by destruct m|].
    destruct m as [|m]; [simpl in Hm; lia|]. simpl in *.
    case_bool_decide.
    + f_equal. apply IH.
      * destruct old; [done|]. simpl. rewrite length_drop. lia.
      * destruct old; [done|]. simpl. rewrite length_drop. lia.
    + f_equal. apply IH; lia.
Qed.

Lemma replace_all_nil old new : old ≠ [] → replace_all old new [] = [].
Proof. by destruct old. Qed.

Lemma replace_all_hit old new rest :
  old ≠ [] → replace_all old new (old ++ rest) = new ++ replace_all old new rest.
Proof.
  intros Hold. unfold replace_all. destruct old as [|x old]; [done|].
  cbn [app length replace_fuel].
  rewrite bool_decide_eq_true_2 by (by exists rest).
  f_equal. change (S (length old)) with (length (x :: old)).
  change (x :: old ++ rest) with ((x :: old) ++ rest).
  rewrite drop_app_length.
  apply replace_fuel_enough; [done| |done]. rewrite length_app. lia.
Qed.

Lemma replace_all_self old new : old ≠ [] → replace_all old new old = new.
Proof.
  intros Hold. rewrite <- (right_id_L [] (++) old) at 2.
  rewrite replace_all_hit, replace_all_nil by done.
  apply (right_id_L [] (++)).
Qed.

Lemma replace_all_miss old new c s :
  ¬ old `prefix_of` (c :: s) →
  replace_all old new (c :: s) = c :: replace_all old new s.
Proof.
  intros H. unfold replace_all. destruct old as [|x old].
  { destruct H. apply prefix_nil. }
  cbn [length replace_fuel]. by rewrite bool_decide_eq_false_2.
Qed.

(** On a pattern of escaped and ordinary characters the scan of [re.sub] is
    the plain replacement of the literal. *)
Lemma sub_from_literal old repl s :
  old ≠ [] → sub_from (Chr <$> old) repl 0 s = replace_all old repl s.
Proof.
  intros Hold. remember (length s) as n eqn:Hn.
  revert s Hn. induction n as [n IH] using lt_wf_ind. intros s ->.
  destruct s as [|c s].
  - rewrite replace_all_nil by done. apply sub_from_nil. by destruct old.
  - destruct (decide (old `prefix_of` (c :: s))) as [[rest E]|Hno].
    + rewrite E, sub_from_hit, replace_all_hit by done. f_equal.
      apply (IH (length rest)); [|done].
      apply (f_equal length) in E. rewrite length_app in E.
      destruct old; [done|]. simpl in *. lia.
    + rewrite sub_from_miss, replace_all_miss by done. f_equal.
      apply (IH (length s)); [simpl; lia|done].
Qed.

(** ** Occurrences *)

Lemma occurs_prefix p s : p `prefix_of` s → occurs p s.
Proof. intros [b ->]. by exists [], b. Qed.

Lemma occurs_cons p x s : occurs p s → occurs p (x :: s).
Proof. intros (a & b & ->). by exists (x :: a), b. Qed.

Lemma occurs_app_l p s t : occurs p s → occurs p (s ++ t).
Proof.
  intros (a & b & ->). exists a, (b ++ t). by rewrite <- !(assoc_L (++)).
Qed.

Lemma occurs_app_r p s t : occurs p t → occurs p (s ++ t).
Proof.
  intros (a & b & ->). exists (s ++ a), b. by rewrite <- !(assoc_L (++)).
Qed.

Lemma occurs_suffix p s : p `suffix_of` s → occurs p s.
Proof. intros [a ->]. exists a, []. by rewrite (right_id_L [] (++)). Qed.

(** Where the literal does not occur, replacing it changes nothing. *)
Lemma replace_all_absent p r s : ¬ occurs p s → replace_all p r s = s.
Proof.
  induction s as [|x s IH]; intros Hno.
  - apply replace_all_nil. intros ->. destruct Hno. by exists [], [].
  - rewrite replace_all_miss.
    + f_equal. apply IH. intros H. by apply Hno, occurs_cons.
    + intros H. by apply Hno, occurs_prefix.
Qed.

(** ** Texts cut at a terminator *)

Section terminator.
Context (c : char).

Lemma terminated_inv w : terminated c w → ∃ w', w = w' ++ [c] ∧ c ∉ w'.
Proof.
  intros [[w' ->]%last_Some Hw]. exists w'. split; [done|].
  by rewrite removelast_last in Hw.
Qed.

Lemma terminated_snoc w' : c ∉ w' → terminated c (w' ++ [c]).
Proof.
  intros Hw. split; [apply last_snoc|]. by rewrite removelast_last.
Qed.

Lemma terminated_ne w : terminated c w → w ≠ [].
Proof. intros (w' & -> & _)%terminated_inv. by destruct w'. Qed.

Lemma terminated_elem w : terminated c w → c ∈ w.
Proof.
  intros (w' & -> & _)%terminated_inv. apply elem_of_app. right.
  by apply list_elem_of_singleton.
Qed.

(** Every text is a run of chunks, each ending at its only terminator,
    followed by a rest without terminator. *)
Lemma chunk_ind (P : text → Prop) :
  (∀ s, c ∉ s → P s) →
  (∀ x s, c ∉ x → P s → P (x ++ c :: s)) →
  ∀ s, P s.
Proof.
  intros Hbase Hstep s. remember (length s) as n eqn:Hn.
  revert s Hn. induction n as [n IH] using lt_wf_ind. intros s ->.
  destruct (decide (c ∈ s)) as [Hin|Hnotin]; [|by apply Hbase].
  apply list_elem_of_split_l in Hin as (x & s' & -> & Hx).
  apply Hstep; [done|]. apply (IH (length s')); [|done].
  rewrite length_app. simpl. lia.
Qed.

(** A terminated word found at the start of a text ends at the first
    terminator of the text. *)
Lemma prefix_first_terminator p x s :
  terminated c p → c ∉ x → p `prefix_of` (x ++ c :: s) → p = x ++ [c].
Proof.
  intros (p' & -> & Hp)%terminated_inv Hx [k E].
  rewrite <- (assoc_L (++)) in E. simpl in E.
  apply not_elem_of_app_cons_inv_l in E as (-> & _ & _); done.
Qed.

Lemma replace_all_no_terminator p r s :
  terminated c p → c ∉ s → replace_all p r s = s.
Proof.
  intros Hp Hs. apply replace_all_absent. intros (a & b & ->).
  apply Hs. rewrite !elem_of_app. right. left. by apply terminated_elem.
Qed.

(** No match runs across a terminator. *)
Lemma replace_all_boundary p r a b :
  terminated c p →
  replace_all p r (a ++ c :: b)
  = replace_all p r (a ++ [c]) ++ replace_all p r b.
Proof.
  intros Hp. pose proof (terminated_ne _ Hp) as Hne.
  remember (length a) as n eqn:Hn.
  revert a Hn. induction n as [n IH] using lt_wf_ind. intros a ->.
  destruct (decide (p `prefix_of` (a ++ c :: b))) as [Hpre|Hno].
  - destruct (decide (c ∈ a)) as [Hin|Hnotin].
    + apply list_elem_of_split_l in Hin as (x & a' & -> & Hx).
      rewrite <- !(assoc_L (++)) in *. simpl in *.
      apply prefix_first_terminator in Hpre as ->; [|done..].
      replace (x ++ c :: a' ++ c :: b) with ((x ++ [c]) ++ a' ++ c :: b)
        by (by rewrite <- (assoc_L (++))).
      replace (x ++ c :: a' ++ [c]) with ((x ++ [c]) ++ a' ++ [c])
        by (by rewrite <- (assoc_L (++))).
      rewrite !replace_all_hit by done.
      rewrite (IH (length a')); [by rewrite (assoc_L (++))| |done].
      rewrite length_app. simpl. lia.
    + apply prefix_first_terminator in Hpre as ->; [|done..].
      replace (a ++ c :: b) with ((a ++ [c]) ++ b)
        by (by rewrite <- (assoc_L (++))).
      rewrite replace_all_hit by done.
      by rewrite replace_all_self.
  - assert (¬ p `prefix_of` (a ++ [c])) as Hno'.
    { intros [k E]. apply Hno. exists (k ++ b).
      rewrite (assoc_L (++)), <- E, <- (assoc_L (++)). done. }
    destruct a as [|x a]; simpl in *.
    + rewrite !replace_all_miss by done.
      by rewrite replace_all_nil by done.
    + rewrite !replace_all_miss by done. simpl. f_equal.
      apply (IH (length a)); [lia|done].
Qed.
End terminator.

(** ** Chunks: texts that end at their only terminator *)

Section chunks.
Context (c : char).

(** In a text cut at its first terminator, a terminated word occurs at
    the end of the first chunk or after it. *)
Lemma occurs_chunk_app q y z :
  terminated c q → c ∉ y → occurs q (y ++ c :: z) →
  q `suffix_of` (y ++ [c]) ∨ occurs q z.
Proof.
  intros (q' & -> & Hq)%terminated_inv Hy (a & b & E).
  rewrite <- !(assoc_L (++)) in E. simpl in E.
  destruct (decide (c ∈ a)) as [Hin|Hnotin].
  - apply list_elem_of_split_l in Hin as (a1 & a2 & -> & Ha1).
    rewrite <- !(assoc_L (++)) in E. simpl in E.
    apply not_elem_of_app_cons_inv_l in E as (_ & _ & ->); [|done..].
    right. exists a2, b. by rewrite <- !(assoc_L (++)).
  - rewrite (assoc_L (++)) in E.
    destruct (not_elem_of_app_cons_inv_l c c y z (a ++ q') b)
      as (-> & _ & _); [rewrite elem_of_app; tauto|done..|].
    left. exists a. by rewrite (assoc_L (++)).
Qed.

Lemma occurs_chunk q k :
  terminated c q → terminated c k → occurs q k → q `suffix_of` k.
Proof.
  intros Hq (x & -> & Hx)%terminated_inv Hocc.
  apply occurs_chunk_app in Hocc as [?|(a & b & E)]; [done| |done..].
  apply terminated_ne in Hq.
  destruct a; destruct q; simplify_eq/=.
Qed.

Lemma replace_all_chunk_hit p r u :
  terminated c p → c ∉ u → replace_all p r (u ++ p) = u ++ r.
Proof.
  intros Hp Hu. pose proof (terminated_ne _ _ Hp) as Hne.
  induction u as [|x u IH]; simpl.
  - by apply replace_all_self.
  - rewrite replace_all_miss.
    + f_equal. apply IH. by apply not_elem_of_cons in Hu as [_ ?].
    + intros Hpre.
      destruct (terminated_inv _ _ Hp) as (p' & E & Hp').
      rewrite E in Hpre at 2.
      change (x :: u ++ p' ++ [c]) with ((x :: u) ++ p' ++ [c]) in Hpre.
      rewrite (assoc_L (++)) in Hpre.
      apply (prefix_first_terminator c) in Hpre; [|done|].
      * apply (f_equal length) in Hpre. rewrite E in Hpre.
        rewrite !length_app in Hpre. simpl in Hpre. lia.
      * rewrite elem_of_app. tauto.
Qed.

(** On a chunk the replacement rewrites the end of the chunk or leaves
    it. *)
Lemma replace_all_chunk p r k :
  terminated c p → terminated c k →
  replace_all p r k = rewrite_chunk p r k.
Proof.
  intros Hp Hk. unfold rewrite_chunk.
  destruct (decide (p `suffix_of` k)) as [[u ->]|Hno].
  - rewrite length_app, Nat.add_sub, take_app_length.
    apply replace_all_chunk_hit; [done|].
    destruct Hk as [_ Hk]. intros Hu. apply Hk.
    destruct (terminated_inv _ _ Hp) as (p' & -> & _).
    rewrite (assoc_L (++)), removelast_last, elem_of_app. tauto.
  - apply replace_all_absent. intros Hocc. by apply Hno, occurs_chunk.
Qed.

Lemma rewrite_chunk_terminated p r k :
  terminated c p → terminated c r → terminated c k →
  terminated c (rewrite_chunk p r k).
Proof.
  intros Hp Hr Hk. unfold rewrite_chunk.
  destruct (decide (p `suffix_of` k)) as [[u ->]|Hno]; [|done].
  rewrite length_app, Nat.add_sub, take_app_length.
  destruct (terminated_inv _ _ Hp) as (p' & -> & _).
  destruct (terminated_inv _ _ Hr) as (r' & -> & Hr').
  rewrite (assoc_L (++)). apply terminated_snoc.
  destruct Hk as [_ Hk].
  rewrite (assoc_L (++)), removelast_last in Hk.
  rewrite elem_of_app in *. tauto.
Qed.

(** A word that is apart from the replacement ends the rewritten chunk
    only where it ended the chunk and the pattern did not. *)
Lemma rewrite_chunk_suffix_inv p r q k :
  apart q r → q `suffix_of` rewrite_chunk p r k →
  q `suffix_of` k ∧ ¬ p `suffix_of` k.
Proof.
  intros [Hqr Hrq]. unfold rewrite_chunk.
  destruct (decide (p `suffix_of` k)) as [Hp|Hno]; [|done].
  intros Hq. destruct (suffix_weak_total q r _ Hq); [| |done..].
  - by apply suffix_app_r.
  - done.
Qed.
End chunks.

(** ** Two rules on one text *)

Section two_rules.
Context (c : char).

Lemma rewrite_chunk_miss p r k :
  ¬ p `suffix_of` k → rewrite_chunk p r k = k.
Proof. intros. unfold rewrite_chunk. by rewrite decide_False. Qed.

Lemma replace_all_chunk_app p r k z :
  terminated c p → terminated c k →
  replace_all p r (k ++ z) = rewrite_chunk p r k ++ replace_all p r z.
Proof.
  intros Hp Hk. rewrite <- (replace_all_chunk c) by done.
  destruct (terminated_inv _ _ Hk) as (x & -> & _).
  rewrite <- (assoc_L (++)). by apply replace_all_boundary.
Qed.

(** A replacement creates no occurrence of a word that is apart from
    what it writes, and leaves none of its own pattern. *)
Lemma replace_all_occurs_inv p r q s :
  terminated c p → terminated c r → terminated c q → apart q r →
  occurs q (replace_all p r s) → occurs q s ∧ q ≠ p.
Proof.
  intros Hp Hr Hq Hqr. induction s as [s Hs|x s Hx IH] using (chunk_ind c).
  - rewrite (replace_all_no_terminator c) by done.
    intros (a & b & ->). destruct Hs.
    rewrite !elem_of_app. right. left. by apply (terminated_elem c).
  - replace (x ++ c :: s) with ((x ++ [c]) ++ s)
      by (by rewrite <- (assoc_L (++))).
    pose proof (terminated_snoc c x Hx) as Hk.
    rewrite replace_all_chunk_app by done.
    pose proof (rewrite_chunk_terminated c p r _ Hp Hr Hk) as Hk'.
    destruct (terminated_inv _ _ Hk') as (y & Ey & Hy).
    rewrite Ey, <- (assoc_L (++)). simpl.
    intros [Hsuf|Hocc]%(occurs_chunk_app c); [| |done..].
    + rewrite <- Ey in Hsuf.
      apply rewrite_chunk_suffix_inv in Hsuf as [Hqk Hpk]; [|done].
      split; [by apply occurs_app_l, occurs_suffix|]. by intros ->.
    + destruct (IH Hocc) as [? ?]. split; [by apply occurs_app_r|done].
Qed.

Lemma rewrite_chunk_comm p1 r1 p2 r2 k :
  apart p1 p2 → apart p1 r2 → apart p2 r1 →
  rewrite_chunk p1 r1 (rewrite_chunk p2 r2 k)
  = rewrite_chunk p2 r2 (rewrite_chunk p1 r1 k).
Proof.
  intros [H12 H21] Hr2 Hr1.
  destruct (decide (p2 `suffix_of` k)) as [Hp2|Hp2];
    destruct (decide (p1 `suffix_of` k)) as [Hp1|Hp1].
  - destruct (suffix_weak_total p1 p2 k); done.
  - rewrite (rewrite_chunk_miss p1 r1 k) by done.
    apply rewrite_chunk_miss.
    intros H. by apply rewrite_chunk_suffix_inv in H as [? ?].
  - rewrite (rewrite_chunk_miss p2 r2 k) by done.
    symmetry. apply rewrite_chunk_miss.
    intros H. by apply rewrite_chunk_suffix_inv in H as [? ?].
  - by rewrite !rewrite_chunk_miss
      by (by rewrite ?rewrite_chunk_miss by done).
Qed.

(** Two rules that cannot meet at a terminator commute. *)
Lemma replace_all_comm p1 r1 p2 r2 s :
  terminated c p1 → terminated c r1 → terminated c p2 → terminated c r2 →
  apart p1 p2 → apart p1 r2 → apart p2 r1 →
  replace_all p1 r1 (replace_all p2 r2 s)
  = replace_all p2 r2 (replace_all p1 r1 s).
Proof.
  intros Hp1 Hr1 Hp2 Hr2 H12 H1 H2.
  induction s as [s Hs|x s Hx IH] using (chunk_ind c).
  - by rewrite !(replace_all_no_terminator c)
      by (by rewrite ?(replace_all_no_terminator c) by done).
  - replace (x ++ c :: s) with ((x ++ [c]) ++ s)
      by (by rewrite <- (assoc_L (++))).
    pose proof (terminated_snoc c x Hx) as Hk.
    rewrite !(replace_all_chunk_app _ _ (x ++ [c])) by done.
    rewrite !replace_all_chunk_app
      by (done || by apply rewrite_chunk_terminated).
    by rewrite IH, rewrite_chunk_comm.
Qed.

End two_rules.

(** ** Rule lists *)

(** A fold whose steps commute pairwise does not depend on the order of
    the list. *)
Lemma foldl_comm_perm {A B} (f : A → B → A) (l l' : list B) :
  l ≡ₚ l' →
  (∀ x y a, x ∈ l → y ∈ l → f (f a x) y = f (f a y) x) →
  ∀ a, foldl f a l = foldl f a l'.
Proof.
  induction 1 as [|x l l' Hperm IH|x y l|l l' l'' Hperm IH Hperm' IH'];
    intros Hcomm a; simpl.
  - done.
  - apply IH. intros y z b Hy Hz. apply Hcomm; by apply elem_of_cons; right.
  - f_equal. apply Hcomm; rewrite !elem_of_cons; tauto.
  - rewrite IH by done. apply IH'.
    intros x y b Hx Hy. apply Hcomm; by rewrite Hperm.
Qed.

Section rule_lists.
Context (c : char).

Lemma replace_each_cons rule rules s :
  replace_each (rule :: rules) s
  = replace_each rules (replace_all rule.1 rule.2 s).
Proof. done. Qed.

Lemma replace_each_absent rules s :
  (∀ rule, rule ∈ rules → ¬ occurs rule.1 s) → replace_each rules s = s.
Proof.
  induction rules as [|rule rules IH]; intros Hno; [done|].
  rewrite replace_each_cons, replace_all_absent.
  - apply IH. intros rule' Hin. apply Hno. by apply elem_of_cons; right.
  - apply Hno. by apply elem_of_cons; left.
Qed.

(** A terminated word that is apart from every replacement occurs after
    the rules only if it occurred before and is none of the patterns. *)
Lemma replace_each_occurs_inv rules q s :
  terminated c q →
  Forall (λ rule, terminated c rule.1 ∧ terminated c rule.2
                  ∧ apart q rule.2) rules →
  occurs q (replace_each rules s) → occurs q s ∧ q ∉ rules.*1.
Proof.
  intros Hq Hrules. revert s.
  induction Hrules as [|rule rules (Hp & Hr & Hqr) _ IH]; intros s Hocc.
  - split; [done|]. apply not_elem_of_nil.
  - rewrite replace_each_cons in Hocc.
    destruct (IH _ Hocc) as [Hocc' Hnotin].
    apply (replace_all_occurs_inv c) in Hocc' as [? ?]; [|done..].
    split; [done|]. rewrite fmap_cons, not_elem_of_cons. done.
Qed.

Lemma separated_terminated rules rule :
  separated c rules → rule ∈ rules →
  terminated c rule.1 ∧ terminated c rule.2.
Proof.
  intros (H & _ & _) Hin. rewrite Forall_forall in H. by apply H.
Qed.

Lemma separated_apart_replacement rules rule rule' :
  separated c rules → rule ∈ rules → rule' ∈ rules →
  apart rule.1 rule'.2.
Proof.
  intros (_ & H & _) Hin Hin'. rewrite Forall_forall in H.
  specialize (H _ Hin). rewrite Forall_forall in H. by apply H.
Qed.

Lemma separated_apart_pattern rules rule rule' :
  separated c rules → rule ∈ rules → rule' ∈ rules →
  rule = rule' ∨ apart rule.1 rule'.1.
Proof.
  intros (_ & _ & H) Hin Hin'. rewrite Forall_forall in H.
  specialize (H _ Hin). rewrite Forall_forall in H. by apply H.
Qed.

(** After the rules of a separated list no pattern of the list is left. *)
Lemma replace_each_clean rules s rule :
  separated c rules → rule ∈ rules →
  ¬ occurs rule.1 (replace_each rules s).
Proof.
  intros Hsep Hin Hocc.
  apply replace_each_occurs_inv in Hocc as [_ Hnotin].
  - apply Hnotin. by apply list_elem_of_fmap_2.
  - by apply (separated_terminated rules).
  - apply Forall_forall. intros rule' Hin'.
    destruct (separated_terminated rules rule' Hsep Hin') as [? ?].
    split_and!; [done..|]. by apply (separated_apart_replacement rules).
Qed.

Lemma replace_each_idemp rules s :
  separated c rules →
  replace_each rules (replace_each rules s) = replace_each rules s.
Proof.
  intros Hsep. apply replace_each_absent.
  intros rule Hin. by apply replace_each_clean.
Qed.

Lemma replace_each_perm rules rules' s :
  separated c rules → rules ≡ₚ rules' →
  replace_each rules s = replace_each rules' s.
Proof.
  intros Hsep Hperm. apply foldl_comm_perm; [done|].
  intros rule rule' a Hin Hin'.
  destruct (separated_apart_pattern rules rule rule' Hsep Hin Hin')
    as [->|Hpp]; [done|].
  destruct (separated_terminated rules rule Hsep Hin) as [? ?].
  destruct (separated_terminated rules rule' Hsep Hin') as [? ?].
  apply (replace_all_comm c); try done.
  - destruct Hpp. by split.
  - by apply (separated_apart_replacement rules).
  - by apply (separated_apart_replacement rules).
Qed.
End rule_lists.

(** ** The three rules *)

Lemma literal_rules_separated : separated semicolon literal_rules.
Proof. compute_done. Qed.

Lemma mapM_atom_literal rx l :
  mapM atom_literal rx = Some l → rx = Chr <$> l.
Proof.
  rewrite mapM_Some. induction 1 as [|a x rx l Ha _ IH]; [done|].
  destruct a; simplify_eq/=. by f_equal.
Qed.

(** A pattern without unescaped dot, with a template without backslash:
    [re.sub] is the plain replacement of the literal. *)
Lemma re_sub_literal p r l s :
  pattern_literal p = Some l → l ≠ [] → backslash ∉ r →
  re_sub p r s = Ok (replace_all l r s).
Proof.
  unfold pattern_literal, re_sub, expand_template. intros Hp Hl Hr.
  destruct (re_compile p) as [rx|]; [|done]. simpl in Hp.
  apply mapM_atom_literal in Hp as ->.
  rewrite bool_decide_eq_false_2 by done. by rewrite sub_from_literal.
Qed.

Lemma apply_rules_literalise rules s :
  Forall literal_rule rules →
  apply_rules rules s = Ok (replace_each (literalise <$> rules) s).
Proof.
  intros Hrules. revert s.
  induction Hrules as [|[p r] rules (Hsome & Hne & Hr) _ IH]; intros s;
    [done|].
  simpl in *. destruct Hsome as [l Hl].
  rewrite (re_sub_literal p r l) by (done || by intros ->; rewrite Hl in Hne).
  simpl. rewrite IH. unfold literalise at 2. simpl. by rewrite Hl.
Qed.

Lemma replacements_literal : Forall literal_rule replacements.
Proof. compute_done. Qed.

Lemma literalise_replacements : literalise <$> replacements = literal_rules.
Proof. by vm_compute. Qed.

Lemma apply_rules_literal s :
  apply_rules replacements s = Ok (replace_each literal_rules s).
Proof.
  rewrite apply_rules_literalise by apply replacements_literal.
  by rewrite literalise_replacements.
Qed.

Lemma fix_file_rules_apply s :
  fix_file_rules s = apply_rules replacements s.
Proof. done. Qed.

(** ** The rule loop as a fold of global replacements *)

Lemma match_here_drop rx s rest :
  match_here rx s = Some rest →
  rest = drop (length rx) s ∧ length rx ≤ length s.
Proof.
  revert s. induction rx as [|a rx IH]; intros s H; simpl in *.
  - split; [by simplify_eq|lia].
  - destruct s as [|c s]; [done|].
    destruct (atom_matches a c); [|done].
    destruct (IH _ H) as [-> ?]. simpl. split; [done|lia].
Qed.

Lemma sub_from_match rx repl c s rest :
  rx ≠ [] → match_here rx (c :: s) = Some rest →
  sub_from rx repl 0 (c :: s) = repl ++ sub_from rx repl 0 rest.
Proof.
  intros Hrx H. cbn [sub_from]. rewrite H.
  apply match_here_drop in H as [-> _].
  destruct rx as [|a rx]; [done|]. cbn [length drop].
  by rewrite sub_from_skip.
Qed.

Lemma sub_from_copy rx repl c s :
  match_here rx (c :: s) = None →
  sub_from rx repl 0 (c :: s) = c :: sub_from rx repl 0 s.
Proof. intros H. cbn [sub_from]. by rewrite H. Qed.

(** The scan replaces all non-overlapping matches. *)
Lemma sub_from_replaces rx repl s :
  rx ≠ [] → replaces_all rx repl s (sub_from rx repl 0 s).
Proof.
  intros Hrx. remember (length s) as n eqn:Hn.
  revert s Hn. induction n as [n IH] using lt_wf_ind. intros s ->.
  destruct s as [|c s].
  - rewrite sub_from_nil by done. constructor.
  - destruct (match_here rx (c :: s)) as [rest|] eqn:E.
    + rewrite (sub_from_match _ _ _ _ rest) by done.
      destruct (match_here_drop _ _ _ E) as [Hrest Hlen].
      assert (c :: s = take (length rx) (c :: s) ++ rest) as Hs
        by (by rewrite Hrest, take_drop).
      assert (take (length rx) (c :: s) ≠ []) as Hm
        by (destruct rx; [done|by simpl]).
      rewrite Hs at 1. apply replaces_match; [done|by rewrite <- Hs|].
      apply (IH (length rest)); [|done].
      rewrite Hrest, length_drop. destruct rx; [done|]. simpl in *. lia.
    + rewrite sub_from_copy by done. apply replaces_copy; [done|].
      apply (IH (length s)); [simpl; lia|done].
Qed.

Lemma replaces_all_det rx repl s out out' :
  replaces_all rx repl s out → replaces_all rx repl s out' → out = out'.
Proof.
  intros H. revert out'.
  induction H as [|m rest out Hm Hmatch _ IH|c s out Hnone _ IH];
    intros out' H'.
  - inversion H' as [|m' rest' ? Hm' _ _ E|]; [done|].
    by destruct m'.
  - remember (m ++ rest) as s eqn:Es.
    destruct H' as [|m' rest' out' Hm' Hmatch' H'|c s out' Hnone' H'].
    + by destruct m.
    + rewrite Hmatch in Hmatch'. simplify_eq. f_equal. by apply IH.
    + by rewrite Hmatch in Hnone'.
  - remember (c :: s) as s0 eqn:Es.
    destruct H' as [|m' rest' out' Hm' Hmatch' H'|c' s' out' Hnone' H'].
    + done.
    + by rewrite Hmatch' in Hnone.
    + simplify_eq. f_equal. by apply IH.
Qed.

Lemma re_compile_ne p rx l :
  re_compile p = Some rx → mapM atom_literal rx = Some l → l ≠ [] → rx ≠ [].
Proof. intros _ H Hl ->. apply Hl. vm_compute in H. by simplify_eq. Qed.

Lemma apply_rules_in_order rules s :
  Forall literal_rule rules →
  ∀ out, apply_rules rules s = Ok out ↔ rewrites_in_order rules s out.
Proof.
  intros Hrules. revert s.
  induction Hrules as [|[p r] rules (Hsome & Hne & Hr) _ IH]; intros s out.
  { simpl. split; [intros; simplify_eq; constructor|by inversion 1]. }
  simpl in *. destruct Hsome as [l Hl].
  assert (l ≠ []) as Hl' by (by intros ->; rewrite Hl in Hne).
  unfold pattern_literal in Hl.
  destruct (re_compile p) as [rx|] eqn:Hrx; [|done]. simpl in Hl.
  assert (rx ≠ []) as Hrx' by (by eapply re_compile_ne).
  assert (re_sub p r s = Ok (sub_from rx r 0 s)) as Hsub.
  { unfold re_sub, expand_template.
    by rewrite Hrx, bool_decide_eq_false_2. }
  rewrite Hsub. simpl. rewrite IH. split.
  - intros H. econstructor; [done| |done]. by apply sub_from_replaces.
  - inversion 1 as [|? ? rx' ? ? s1 ? Hrx2 Hrep Hrest]; simplify_eq.
    by rewrite (replaces_all_det _ _ _ _ _ (sub_from_replaces rx r s Hrx') Hrep).
Qed.

Lemma foldl_Raise (rules : list (text * text)) e :
  foldl (λ acc rule, content ←! acc; re_sub rule.1 rule.2 content)
        (Raise e) rules = Raise e.
Proof. by induction rules. Qed.

Lemma apply_rules_foldl rules s :
  apply_rules rules s
  = foldl (λ acc rule, content ←! acc; re_sub rule.1 rule.2 content)
          (Ok s) rules.
Proof.
  revert s. induction rules as [|[p r] rules IH]; intros s; simpl; [done|].
  destruct (re_sub p r s) as [s'|e]; simpl; [apply IH|].
  by rewrite foldl_Raise.
Qed.

(** ** Replacing the occurrences of a literal *)

Lemma replaces_occurrences_cons old new c s out :
  ¬ old `prefix_of` (c :: s) →
  replaces_occurrences old new s out →
  replaces_occurrences old new (c :: s) (c :: out).
Proof.
  intros Hno H. destruct H as [s Hocc|a rest out Hleft H].
  - apply occurrences_none. intros ([|x a] & b & E).
    + apply Hno. by exists b.
    + apply Hocc. exists a, b. by simplify_eq/=.
  - apply (occurrences_leftmost old new (c :: a)); [|done].
    intros [|x a'] rest' E.
    + destruct Hno. exists rest'. exact E.
    + simplify_eq/=. apply le_n_S. by eapply Hleft.
Qed.

Lemma replace_all_occurrences old new s :
  old ≠ [] → replaces_occurrences old new s (replace_all old new s).
Proof.
  intros Hold. remember (length s) as n eqn:Hn.
  revert s Hn. induction n as [n IH] using lt_wf_ind. intros s ->.
  destruct s as [|c s].
  - rewrite replace_all_nil by done. apply occurrences_none.
    intros (a & b & E). destruct a, old; done.
  - destruct (decide (old `prefix_of` (c :: s))) as [[rest E]|Hno].
    + rewrite E, replace_all_hit by done.
      apply (occurrences_leftmost old new []).
      * intros a' rest' _. simpl. lia.
      * apply (IH (length rest)); [|done].
        apply (f_equal length) in E. rewrite length_app in E.
        destruct old; [done|]. simpl in *. lia.
    + rewrite replace_all_miss by done.
      apply replaces_occurrences_cons; [done|].
      apply (IH (length s)); [simpl; lia|done].
Qed.

Lemma replaces_occurrences_det old new s out out' :
  replaces_occurrences old new s out → replaces_occurrences old new s out' →
  out = out'.
Proof.
  intros H. revert out'.
  induction H as [s Hocc|a rest out Hleft _ IH]; intros out' H'.
  - destruct H' as [|a' rest' out' _ _]; [done|].
    destruct Hocc. by exists a', rest'.
  - remember (a ++ old ++ rest) as s eqn:Es.
    destruct H' as [s Hocc|a' rest' out' Hleft' H'].
    + destruct Hocc. by exists a, rest.
    + assert (length a = length a') as Hlen.
      { apply Nat.le_antisymm; [by eapply Hleft|by eapply Hleft']. }
      apply app_inj_1 in Es as [-> Es]; [|done].
      apply (inj (app old)) in Es as ->. do 2 f_equal. by apply IH.
Qed.

Lemma replaces_occurrences_iff old new s out :
  old ≠ [] →
  replaces_occurrences old new s out ↔ out = replace_all old new s.
Proof.
  intros Hold. split.
  - intros H. eapply replaces_occurrences_det; [done|].
    by apply replace_all_occurrences.
  - intros ->. by apply replace_all_occurrences.
Qed.

(** [C1] For every text, what [apply_rules] returns on the rule list of the
    scripts is the left fold of [re.sub] over the rules in list order, and
    the three assignments of [fix-ns.py] compute the same.  It is the one
    text reached in three steps, each on the whole output of the step
    before: every non-overlapping occurrence, leftmost first, of
    [using Core.Libraries.Application.Commands;] is replaced by
    [using Core.LibrariesApplication.Commands;], then those of
    [using Core.Libraries.Application.Queries;] by
    [using Core.LibrariesApplication.Queries;], then those of
    [using Techleap.Core.Domain.Exceptions;] by
    [using Core.Libraries.Domain.Exceptions;]. *)
Theorem apply_rules_left_fold (s : text) :
  apply_rules replacements s
  = foldl (λ acc rule, content ←! acc; re_sub rule.1 rule.2 content)
          (Ok s) replacements
  ∧ fix_file_rules s = apply_rules replacements s
  ∧ (∃ out, apply_rules replacements s = Ok out)
  ∧ (∀ out, apply_rules replacements s = Ok out
            ↔ rewrites_in_order replacements s out)
  ∧ (∀ out, apply_rules replacements s = Ok out
      ↔ ∃ s1 s2,
          replaces_occurrences
            (lit "using Core.Libraries.Application.Commands;")
            (lit "using Core.LibrariesApplication.Commands;") s s1
          ∧ replaces_occurrences
              (lit "using Core.Libraries.Application.Queries;")
              (lit "using Core.LibrariesApplication.Queries;") s1 s2
          ∧ replaces_occurrences
              (lit "using Techleap.Core.Domain.Exceptions;")
              (lit "using Core.Libraries.Domain.Exceptions;") s2 out).
Proof.
  split_and!.
  - apply apply_rules_foldl.
  - apply fix_file_rules_apply.
  - eexists. apply apply_rules_literal.
  - apply apply_rules_in_order, replacements_literal.
  - intros out. rewrite apply_rules_literal. split.
    + intros [= <-]. eexists _, _. split_and!;
        apply replace_all_occurrences; done.
    + intros (s1 & s2 & H1 & H2 & H3).
      apply replaces_occurrences_iff in H1 as ->; [|done].
      apply replaces_occurrences_iff in H2 as ->; [|done].
      apply replaces_occurrences_iff in H3 as ->; [|done].
      done.
Qed.

(** [C2] On the three rules of the scripts, applying [apply_rules] to its
    own output gives that output again. *)
Theorem apply_rules_idempotent (s : text) :
  (s' ←! apply_rules replacements s; apply_rules replacements s')
  = apply_rules replacements s.
Proof.
  rewrite (apply_rules_literal s). cbn [bind]. rewrite apply_rules_literal.
  f_equal. apply (replace_each_idemp semicolon), literal_rules_separated.
Qed.

(** [C9] No pattern of the rule list has an unescaped metacharacter: each
    compiles to a regex that matches its one literal and nothing else, and
    [apply_rules] is three plain replacements of those literals, one after
    the other. *)
Theorem apply_rules_plain_replace :
  Forall2 (λ rule lrule,
      ∃ rx, re_compile rule.1 = Some rx ∧ (Dot ∉ rx)
            ∧ (∀ s rest, match_here rx s = Some rest ↔ s = lrule.1 ++ rest)
            ∧ rule.2 = lrule.2)
    replacements literal_rules
  ∧ ∀ s,
      apply_rules replacements s
      = Ok (replace_all (lit "using Techleap.Core.Domain.Exceptions;")
                        (lit "using Core.Libraries.Domain.Exceptions;")
           (replace_all (lit "using Core.Libraries.Application.Queries;")
                        (lit "using Core.LibrariesApplication.Queries;")
           (replace_all (lit "using Core.Libraries.Application.Commands;")
                        (lit "using Core.LibrariesApplication.Commands;")
                        s)))
      ∧ fix_file_rules s = apply_rules replacements s.
Proof.
  split.
  - unfold replacements, literal_rules.
    do 3 (constructor;
      [lazymatch goal with
       | |- ∃ rx, _ ∧ _ ∧ (∀ s rest, _ ↔ s = ?l ++ rest) ∧ _ =>
         exists (Chr <$> l)
       end; split_and!;
       [by vm_compute
       |intros (? & ? & ?)%list_elem_of_fmap; done
       |apply match_here_literal
       |done]|]).
    constructor.
  - intros s. split; [apply apply_rules_literal|apply fix_file_rules_apply].
Qed.

(** [C10] The three rules can be applied in any order: every permutation
    of the rule list gives, on every text, the output of the programmed
    order. *)
Theorem apply_rules_any_order (rules : list (text * text)) (s : text) :
  rules ≡ₚ replacements →
  apply_rules rules s = apply_rules replacements s.
Proof.
  intros Hperm.
  rewrite apply_rules_literal, apply_rules_literalise.
  - f_equal. symmetry. apply (replace_each_perm semicolon).
    + apply literal_rules_separated.
    + by rewrite <- literalise_replacements, Hperm.
  - rewrite Hperm. apply replacements_literal.
Qed.

Lemma apply_rules_any_order_witness :
  reverse replacements ≡ₚ replacements
  ∧ apply_rules (reverse replacements)
      (lit "using Techleap.Core.Domain.Exceptions;")
    = apply_rules replacements
      (lit "using Techleap.Core.Domain.Exceptions;").
Proof.
  split.
  - apply reverse_Permutation.
  - apply (apply_rules_any_order (reverse replacements)).
    apply reverse_Permutation.
Defined.

(** * The files

    From here on the rule lists and the replacement stay folded. *)

Arguments lit : simpl never.
Arguments replacements : simpl never.
Arguments literal_rules : simpl never.
Arguments apply_rules : simpl never.
Arguments fix_file_rules : simpl never.
Arguments replace_all : simpl never.
Arguments replace_each : simpl never.

(** ** Decoding and encoding *)

Ltac unbool :=
  unfold in_range, is_continuation in *;
  repeat match goal with
  | H : (_ && _)%bool = true |- _ => apply andb_true_iff in H as [? ?]
  | H : (_ && _)%bool = false |- _ => apply andb_false_iff in H as [H|H]
  | H : (_ <=? _)%N = true |- _ => apply N.leb_le in H
  | H : (_ <=? _)%N = false |- _ => apply N.leb_gt in H
  | H : (_ <? _)%N = true |- _ => apply N.ltb_lt in H
  | H : (_ <? _)%N = false |- _ => apply N.ltb_ge in H
  | H : (_ =? _)%N = true |- _ => apply N.eqb_eq in H
  | H : (_ =? _)%N = false |- _ => apply N.eqb_neq in H
  end.

Lemma utf8_decode_valid d s : utf8_decode d = Some s → Forall valid_char s.
Proof.
  remember (length d) as n eqn:Hn. revert d s Hn.
  induction n as [n IH] using lt_wf_ind. intros d s -> H.
  destruct d as [|b0 r0]; simpl in H; [by simplify_eq|].
  repeat (case_match; simplify_eq/=; try done);
    apply fmap_Some in H as (s' & Hs' & ->);
    (constructor;
     [unbool; unfold valid_char; lia
     |eapply IH; [|done|done]; simpl; lia]).
Qed.

Lemma universal_newlines_Forall (P : char → Prop) s :
  P newline → Forall P s → Forall P (universal_newlines s).
Proof.
  intros Hnl. remember (length s) as n eqn:Hn. revert s Hn.
  induction n as [n IH] using lt_wf_ind. intros s -> Hs.
  destruct s as [|c s]; simpl; [done|].
  apply Forall_cons in Hs as [Hc Hs].
  case_bool_decide.
  - constructor; [done|]. destruct s as [|c' s]; [by constructor|].
    apply Forall_cons in Hs as [Hc' Hs'].
    case_bool_decide.
    + apply (IH (length s)); [simpl; lia|done..].
    + apply (IH (length (c' :: s))); [simpl; lia|done|by constructor].
  - constructor; [done|]. apply (IH (length s)); [simpl; lia|done..].
Qed.

Lemma decode_valid d s : decode d = Ok s → Forall valid_char s.
Proof.
  unfold decode. destruct (utf8_decode d) as [s'|] eqn:E; [|done].
  intros ?; simplify_eq. apply universal_newlines_Forall.
  - unfold valid_char, newline. lia.
  - by eapply utf8_decode_valid.
Qed.

Lemma utf8_encode_char_valid c : valid_char c → is_Some (utf8_encode_char c).
Proof.
  intros [? ?]. unfold utf8_encode_char.
  repeat (case_match; try done); unbool; lia.
Qed.

Lemma encode_valid s : Forall valid_char s → ∃ d, encode s = Ok d.
Proof.
  intros Hs. unfold encode, utf8_encode.
  assert (is_Some (mapM utf8_encode_char s)) as [ds Hds].
  { apply mapM_is_Some. eapply Forall_impl; [done|].
    apply utf8_encode_char_valid. }
  unfold bytes in *. rewrite Hds. simpl. by eexists.
Qed.

Lemma replace_all_Forall (P : char → Prop) p r s :
  Forall P r → Forall P s → Forall P (replace_all p r s).
Proof.
  intros Hr. destruct (decide (p = [])) as [->|Hp].
  { intros Hs. simpl. apply Forall_app. split; [done|].
    induction Hs as [|c s Hc _ IH]; simpl; [done|].
    constructor; [done|]. by apply Forall_app. }
  remember (length s) as n eqn:Hn. revert s Hn.
  induction n as [n IH] using lt_wf_ind. intros s -> Hs.
  destruct s as [|c s]; [by rewrite replace_all_nil|].
  destruct (decide (p `prefix_of` (c :: s))) as [[rest E]|Hno].
  - rewrite E, replace_all_hit by done. rewrite E in Hs.
    apply Forall_app in Hs as [_ Hrest]. apply Forall_app. split; [done|].
    apply (IH (length rest)); [|done..].
    apply (f_equal length) in E. rewrite length_app in E.
    destruct p; [done|]. simpl in *. lia.
  - rewrite replace_all_miss by done.
    apply Forall_cons in Hs as [Hc Hs]. constructor; [done|].
    apply (IH (length s)); [simpl; lia|done..].
Qed.

Lemma replace_each_Forall (P : char → Prop) rules s :
  Forall (λ rule, Forall P rule.2) rules → Forall P s →
  Forall P (replace_each rules s).
Proof.
  intros Hrules. revert s.
  induction Hrules as [|rule rules Hr _ IH]; intros s Hs; [done|].
  rewrite replace_each_cons. by apply IH, replace_all_Forall.
Qed.

Lemma literal_rules_valid :
  Forall (λ rule, Forall valid_char rule.2) literal_rules.
Proof.
  unfold literal_rules. repeat constructor; unfold valid_char; simpl; lia.
Qed.

(** ** The file tree *)

Lemma find_entry_update nm f es :
  find_entry nm (update_entry nm f es) = f <$> find_entry nm es.
Proof.
  induction es as [|[nm' n] es IH]; simpl; [done|].
  case_bool_decide; simpl.
  - by rewrite bool_decide_eq_true_2.
  - by rewrite bool_decide_eq_false_2.
Qed.


Lemma update_entry_ext nm f g es :
  (∀ n, f n = g n) → update_entry nm f es = update_entry nm g es.
Proof.
  intros Hfg. induction es as [|[nm' n] es IH]; simpl; [done|].
  case_bool_decide; [by rewrite Hfg|by rewrite IH].
Qed.

Lemma update_entry_compose nm f g es :
  update_entry nm g (update_entry nm f es) = update_entry nm (g ∘ f) es.
Proof.
  induction es as [|[nm' n] es IH]; simpl; [done|].
  case_bool_decide; simpl.
  - by rewrite bool_decide_eq_true_2.
  - by rewrite bool_decide_eq_false_2, IH.
Qed.

Lemma lookup_set_data_same n p d r w m d' :
  lookup_path n p = Ok (File d r w m) →
  lookup_path (set_data n p d') p = Ok (File d' r w m).
Proof.
  revert n. induction p as [|nm p IH]; intros n; simpl.
  - intros ?; by simplify_eq.
  - destruct n as [|l es]; [done|]. simpl.
    rewrite find_entry_update.
    destruct (find_entry nm es) as [child|]; [|done]. simpl. apply IH.
Qed.

Lemma set_data_set_data n p d1 d2 :
  set_data (set_data n p d1) p d2 = set_data n p d2.
Proof.
  revert n. induction p as [|nm p IH]; intros [d r w m|l es]; simpl;
    try done.
  rewrite update_entry_compose. f_equal.
  apply update_entry_ext. intros n. apply IH.
Qed.

Lemma store_store t p d1 d2 : store (store t p d1) p d2 = store t p d2.
Proof. destruct t as [n|]; simpl; [|done]. by rewrite set_data_set_data. Qed.

Lemma stat_store_same t p d r w m d' :
  stat t p = Ok (File d r w m) →
  stat (store t p d') p = Ok (File d' r w m).
Proof. destruct t as [n|]; simpl; [apply lookup_set_data_same|done]. Qed.



(** ** The [try] block *)

Lemma read_text_inv t p s :
  read_text t p = Ok s →
  ∃ d w m, stat t p = Ok (File d true w m) ∧ decode d = Ok s.
Proof.
  unfold read_text, read_bytes. intros H.
  destruct (stat t p) as [[d r w m|l es]|e]; simpl in H; try done.
  destruct r; simpl in H; [|done]. by exists d, w, m.
Qed.

Lemma process_unchanged rewrite t p s :
  read_text t p = Ok s → rewrite s = Ok s →
  process rewrite t p = (Ok false, t).
Proof.
  unfold read_text, process. intros Hread Hrw.
  destruct (read_bytes t p) as [d|e]; simpl in *; [|done].
  rewrite Hread. simpl. rewrite Hrw. simpl.
  by rewrite bool_decide_eq_false_2 by (by intros []).
Qed.

Lemma write_fits t p d r w m d' :
  stat t p = Ok (File d r w m) → fits m d' = true →
  write t p d' = (Ok (), store t p d').
Proof.
  unfold write. intros -> Hfits. destruct m as [n|]; [|done].
  by rewrite Hfits.
Qed.

Lemma write_full t p d r w n d' :
  stat t p = Ok (File d r w (Some n)) → fits (Some n) d' = false →
  write t p d' = (Raise OSError, store t p (take n d')).
Proof. unfold write. intros -> Hfits. by rewrite Hfits. Qed.


Lemma process_ext rewrite rewrite' t p :
  (∀ s, rewrite s = rewrite' s) →
  process rewrite t p = process rewrite' t p.
Proof.
  intros Hext. unfold process.
  destruct (read_bytes t p) as [d|e]; simpl; [|done].
  destruct (decode d) as [s|e]; simpl; [|done]. by rewrite Hext.
Qed.

Lemma has_match_literal p l s :
  pattern_literal p = Some l → has_match p s ↔ occurs l s.
Proof.
  unfold pattern_literal, has_match. intros Hl.
  destruct (re_compile p) as [rx|]; [|done]. simpl in Hl.
  apply mapM_atom_literal in Hl as ->. split.
  - intros (rx & a & b & rest & ? & -> & Hm); simplify_eq.
    apply match_here_literal in Hm as ->. by exists a, rest.
  - intros (a & b & ->). exists (Chr <$> l), a, (l ++ b), b.
    split_and!; [done..|]. by apply match_here_literal.
Qed.

(** Where no pattern of the scripts matches, the rules return the text. *)
Lemma apply_rules_no_match s :
  (∀ rule, rule ∈ replacements → ¬ has_match rule.1 s) →
  apply_rules replacements s = Ok s.
Proof.
  intros Hno. rewrite apply_rules_literal. f_equal.
  apply replace_each_absent. intros lrule Hin.
  rewrite <- literalise_replacements in Hin.
  apply list_elem_of_fmap in Hin as (rule & -> & Hin).
  pose proof replacements_literal as Hlit.
  rewrite Forall_forall in Hlit.
  destruct (Hlit _ Hin) as ([l Hl] & _ & _).
  unfold literalise. simpl. rewrite Hl. simpl.
  rewrite <- (has_match_literal _ _ _ Hl). by apply Hno.
Qed.

(** ** Around an occurrence *)

Section around.
Context (c : char).


End around.



Lemma no_match_without_semicolon s :
  semicolon ∉ s → ∀ rule, rule ∈ replacements → ¬ has_match rule.1 s.
Proof.
  intros Hs rule Hin.
  pose proof replacements_literal as Hlit. rewrite Forall_forall in Hlit.
  destruct (Hlit _ Hin) as ([l Hl] & _ & _).
  rewrite (has_match_literal _ _ _ Hl). intros (a & b & ->).
  apply Hs. rewrite !elem_of_app. right. left.
  apply (terminated_elem semicolon).
  assert (literalise rule ∈ literal_rules) as Hin'.
  { rewrite <- literalise_replacements. by apply list_elem_of_fmap_2. }
  destruct (separated_terminated semicolon _ _ literal_rules_separated Hin')
    as [Ht _].
  unfold literalise in Ht. simpl in Ht. by rewrite Hl in Ht.
Qed.

(** ** The loops over the files *)



(** ** The claims about files *)

(** [C3] A file whose text no pattern matches: the [try] block returns
    false, and the tree, the file with it, is what it was; nothing is
    printed. *)
Theorem process_no_match (t : tree) (p : path) (s : text)
    (out err : list line) :
  read_text t p = Ok s →
  (∀ rule, rule ∈ replacements → ¬ has_match rule.1 s) →
  process (apply_rules replacements) t p = (Ok false, t)
  ∧ fix_file (World t out err) p = (false, World t out err)
  ∧ process_cs_file (World t out err) p = World t out err.
Proof.
  intros Hread Hno.
  pose proof (process_unchanged (apply_rules replacements) t p s Hread
                (apply_rules_no_match s Hno)) as Hp.
  split_and!; [done| |].
  - unfold fix_file. simpl.
    by rewrite (process_ext _ (apply_rules replacements)), Hp
      by apply fix_file_rules_apply.
  - unfold process_cs_file. simpl. by rewrite Hp.
Qed.

Lemma process_no_match_witness :
  let t := Some (Dir true
             [("A.cs"%string, File (list_byte_of_string "class A {}")
                                   true true None)]) in
  process (apply_rules replacements) t ["A.cs"%string] = (Ok false, t)
  ∧ fix_file (World t [] []) ["A.cs"%string] = (false, World t [] [])
  ∧ process_cs_file (World t [] []) ["A.cs"%string] = World t [] [].
Proof.
  intros t.
  apply (process_no_match t ["A.cs"%string] (lit "class A {}") [] []).
  - reflexivity.
  - apply no_match_without_semicolon. vm_compute.
    intros H. repeat (apply elem_of_cons in H as [H|H]; [discriminate|]).
    by apply elem_of_nil in H.
Defined.

(** [C6] A file that cannot be decoded, under [fix-namespaces.py]: the
    error is caught and the run ends, but the message is on standard
    output, between the progress lines, and standard error stays empty;
    [fix-ns.py] prints the same message to standard error. *)
Theorem fix_namespaces_error_on_stdout :
  let t := Some (Dir true
             [("A.cs"%string,
               File (list_byte_of_string
                       "using Core.Libraries.Application.Queries;")
                    true true None);
              ("B.cs"%string, File [xff] true true None)]) in
  let t' := store t ["A.cs"%string]
              (list_byte_of_string
                 "using Core.LibrariesApplication.Queries;") in
  main_fix_namespaces t
  = (World t' [FoundFiles 2; FixedPath ["A.cs"%string];
               ErrorProcessing ["B.cs"%string] UnicodeDecodeError;
               DoneLine] [], 0%Z)
  ∧ main_fix_ns t
    = (World t' [FixedCount 1]
                [ErrorProcessing ["B.cs"%string] UnicodeDecodeError], 0%Z).
Proof. by vm_compute. Qed.

(** The claim [C7] as stated fails: with no root directory both scripts
    run to their end, print their summary and exit with status 0. *)
Lemma missing_root_exits_zero :
  main_fix_ns None = (World None [FixedCount 0] [], 0%Z)
  ∧ main_fix_namespaces None = (World None [FoundFiles 0; DoneLine] [], 0%Z).
Proof. done. Qed.

(** [C7 amended] A root that is missing or cannot be listed: no file is
    found, nothing is read or written, the summary of an empty run is
    printed and the status is 0. *)
Theorem unlistable_root_completes (t : tree) :
  (t = None ∨ ∃ es, t = Some (Dir false es)) →
  cs_paths t = [] ∧ cs_files t = []
  ∧ main_fix_ns t = (World t [FixedCount 0] [], 0%Z)
  ∧ main_fix_namespaces t = (World t [FoundFiles 0; DoneLine] [], 0%Z).
Proof. by intros [->|[es ->]]. Qed.

Lemma unlistable_root_completes_witness :
  let t := Some (Dir false
             [("A.cs"%string,
               File (list_byte_of_string
                       "using Core.Libraries.Application.Commands;")
                    true true None)]) in
  cs_paths t = [] ∧ cs_files t = []
  ∧ main_fix_ns t = (World t [FixedCount 0] [], 0%Z)
  ∧ main_fix_namespaces t = (World t [FoundFiles 0; DoneLine] [], 0%Z).
Proof.
  intros t. apply (unlistable_root_completes t). right. by eexists.
Defined.




Ltac solve_elem := rewrite ?elem_of_cons, ?elem_of_nil in *; naive_solver.

(** * More on the [try] block and the runs *)

Lemma lookup_path_raises n p e :
  lookup_path n p = Raise e → e = FileNotFoundError ∨ e = NotADirectoryError.
Proof.
  revert n. induction p as [|nm p IH]; intros n; simpl; [done|].
  destruct n as [|l es]; [intros; simplify_eq; by right|].
  destruct (find_entry nm es); [apply IH|intros; simplify_eq; by left].
Qed.

Lemma read_bytes_raises t p e :
  read_bytes t p = Raise e →
  e ∈ [FileNotFoundError; NotADirectoryError; PermissionError;
       IsADirectoryError].
Proof.
  unfold read_bytes. destruct (stat t p) as [[d r w|l es]|e'] eqn:E; simpl.
  - destruct r; intros; simplify_eq. solve_elem.
  - intros; simplify_eq. solve_elem.
  - intros; simplify_eq. destruct t as [n|]; simpl in E.
    + destruct (lookup_path_raises _ _ _ E) as [->| ->]; solve_elem.
    + simplify_eq. solve_elem.
Qed.

(** What the [try] block does, case by case. *)
Lemma process_cases t p :
  match process (apply_rules replacements) t p with
  | (Ok false, t') =>
    t' = t
    ∧ ∃ s, read_text t p = Ok s ∧ apply_rules replacements s = Ok s
  | (Ok true, t') =>
    ∃ s s' d',
      read_text t p = Ok s ∧ apply_rules replacements s = Ok s'
      ∧ s' ≠ s ∧ encode s' = Ok d' ∧ t' = store t p d'
  | (Raise e, t') =>
    (t' = t
     ∧ e ∈ [FileNotFoundError; NotADirectoryError; PermissionError;
            IsADirectoryError; UnicodeDecodeError])
    ∨ (e = OSError
       ∧ ∃ s s' d' n,
           read_text t p = Ok s ∧ apply_rules replacements s = Ok s'
           ∧ s' ≠ s ∧ encode s' = Ok d' ∧ n < length d'
           ∧ t' = store t p (take n d'))
  end.
Proof.
  unfold process, read_text.
  destruct (read_bytes t p) as [d|e] eqn:Hread; cbn [bind].
  2: { left. split; [done|]. apply read_bytes_raises in Hread. solve_elem. }
  destruct (decode d) as [s|e] eqn:Hdec; cbn [bind].
  2: { unfold decode in Hdec. destruct (utf8_decode d); simplify_eq.
       left. split; [done|]. solve_elem. }
  rewrite apply_rules_literal. cbn [bind].
  case_bool_decide as Hne.
  - unfold open_w. unfold read_bytes in Hread.
    destruct (stat t p) as [[d0 r w m|l es]|e] eqn:Hstat; simpl in *;
      try done.
    destruct w; simpl; [|left; split; [done|solve_elem]].
    destruct (encode_valid (replace_each literal_rules s)) as [d' Hd'].
    { apply replace_each_Forall; [apply literal_rules_valid|].
      by eapply decode_valid. }
    rewrite Hd'.
    pose proof (stat_store_same t p d0 r true m [] Hstat) as Hstat'.
    destruct (fits m d') eqn:Hfits.
    + rewrite (write_fits _ p [] r true m d') by done.
      exists s, (replace_each literal_rules s), d'.
      split_and!; [done|apply apply_rules_literal|done..|apply store_store].
    + destruct m as [n|]; [|done].
      rewrite (write_full _ p [] r true n d') by done.
      right. split; [done|].
      exists s, (replace_each literal_rules s), d', n.
      split_and!; [done|apply apply_rules_literal|done..| |apply store_store].
      simpl in Hfits. apply bool_decide_eq_false in Hfits. lia.
  - split; [done|]. exists s. split; [done|].
    rewrite apply_rules_literal. f_equal.
    by destruct (decide (replace_each literal_rules s = s)).
Qed.

(** [X1] The [try] block never fails in [re.sub] nor in encoding: the
    three patterns compile, and a text that was decoded from the file and
    rewritten by the rules can always be encoded, so no file is left
    emptied by an encoding error. *)
Theorem process_never_fails_encoding (t : tree) (p : path) (e : exn) :
  e ∈ [ReError; UnicodeEncodeError] →
  (process (apply_rules replacements) t p).1 ≠ Raise e
  ∧ (process fix_file_rules t p).1 ≠ Raise e.
Proof.
  intros He.
  assert (process fix_file_rules t p
          = process (apply_rules replacements) t p) as ->
    by apply process_ext, fix_file_rules_apply.
  pose proof (process_cases t p) as H.
  destruct (process (apply_rules replacements) t p) as [[[]|e'] t'];
    cbn [fst]; [done..|].
  assert (e ≠ e'); [|split; congruence].
  intros <-. destruct H as [[_ H]|[-> _]]; solve_elem.
Qed.

Lemma process_never_fails_encoding_witness :
  let t := Some (Dir true
             [("A.cs"%string,
               File (list_byte_of_string
                       "using Core.Libraries.Application.Commands;")
                    true true (Some 10))]) in
  (process (apply_rules replacements) t ["A.cs"%string]).1
  ≠ Raise UnicodeEncodeError
  ∧ (process fix_file_rules t ["A.cs"%string]).1 ≠ Raise UnicodeEncodeError.
Proof.
  intros t.
  apply (process_never_fails_encoding t ["A.cs"%string] UnicodeEncodeError).
  rewrite !elem_of_cons. tauto.
Defined.

Lemma process_tree rewrite t p :
  (process rewrite t p).2 = t ∨ ∃ d, (process rewrite t p).2 = store t p d.
Proof.
  unfold process.
  destruct (d ←! read_bytes t p; original ←! decode d;
            content ←! rewrite original; Ok (original, content))
    as [[s s']|e]; [|by left].
  case_bool_decide; [|by left].
  unfold open_w. destruct (stat t p) as [[d r w m|l es]|e]; simpl;
    try (by left).
  destruct w; simpl; [|by left].
  destruct (encode s') as [d'|e]; simpl; right; [|by exists []].
  unfold write.
  destruct (stat (store t p []) p) as [[d1 r1 w1 [n|]|l1 es1]|e1];
    [destruct (fits (Some n) d')|..]; cbn [snd]; eexists; apply store_store.
Qed.



(** [X4] What the rules return holds no match of any of the three
    patterns. *)
Theorem apply_rules_leaves_no_match (s out : text) (rule : text * text) :
  apply_rules replacements s = Ok out → rule ∈ replacements →
  ¬ has_match rule.1 out.
Proof.
  rewrite apply_rules_literal. intros ? Hin; simplify_eq.
  pose proof replacements_literal as Hlit. rewrite Forall_forall in Hlit.
  destruct (Hlit _ Hin) as ([l Hl] & _ & _).
  rewrite (has_match_literal _ _ _ Hl).
  assert (literalise rule ∈ literal_rules) as Hin'.
  { rewrite <- literalise_replacements. by apply list_elem_of_fmap_2. }
  pose proof (replace_each_clean semicolon literal_rules s _
                literal_rules_separated Hin') as Hclean.
  unfold literalise in Hclean. simpl in Hclean. by rewrite Hl in Hclean.
Qed.

Lemma apply_rules_leaves_no_match_witness :
  ¬ has_match (lit "using Techleap\.Core\.Domain\.Exceptions;")
      (lit "using Core.Libraries.Domain.Exceptions;").
Proof.
  apply (apply_rules_leaves_no_match
           (lit "using Techleap.Core.Domain.Exceptions;")
           (lit "using Core.Libraries.Domain.Exceptions;")
           (lit "using Techleap\.Core\.Domain\.Exceptions;",
            lit "using Core.Libraries.Domain.Exceptions;")).
  - vm_compute. reflexivity.
  - unfold replacements. rewrite !elem_of_cons. tauto.
Defined.

(** ** The search does not depend on what the files hold *)

Lemma is_dir_set_data n p d : is_dir (set_data n p d) = is_dir n.
Proof. destruct p, n; done. Qed.

Lemma filter_update_entry (P : name * node → Prop)
    `{∀ e, Decision (P e)} nm f es :
  (∀ nm' n, P (nm', f n) ↔ P (nm', n)) →
  (filter P (update_entry nm f es)).*1 = (filter P es).*1.
Proof.
  intros HP. induction es as [|[nm' n] es IH]; [done|].
  cbn [update_entry]. case_bool_decide.
  - destruct (decide (P (nm', n))) as [Hn|Hn].
    + by rewrite !filter_cons_True by (done || by apply HP).
    + by rewrite !filter_cons_False by (done || by rewrite HP).
  - destruct (decide (P (nm', n))) as [Hn|Hn].
    + rewrite !filter_cons_True by done. rewrite !fmap_cons. by f_equal.
    + by rewrite !filter_cons_False by done.
Qed.

Lemma fmap_fst_compose {A} (g : name → A) (l : list (name * node)) :
  (λ e, g e.1) <$> l = g <$> l.*1.
Proof. by rewrite <- list_fmap_compose. Qed.

Lemma walk_set_data top n p d : walk top (set_data n p d) = walk top n.
Proof.
  revert top n. induction p as [|nm p IH]; intros top [d0 r w|l es];
    simpl; try done.
  destruct l; [|done]. f_equal.
  - f_equal; [f_equal|]; apply filter_update_entry; intros nm' n; simpl;
      by rewrite is_dir_set_data.
  - induction es as [|[nm' n] es IHes]; simpl; [done|].
    case_bool_decide; simpl.
    + by rewrite is_dir_set_data, IH.
    + by rewrite IHes.
Qed.

Lemma rglob_cs_set_data top n p d :
  rglob_cs top (set_data n p d) = rglob_cs top n.
Proof.
  revert top n. induction p as [|nm p IH]; intros top [d0 r w|l es];
    simpl; try done.
  destruct l; [|done]. f_equal.
  - etrans; [apply (fmap_fst_compose (λ nm', top ++ [nm']))|].
    etrans; [|symmetry; apply (fmap_fst_compose (λ nm', top ++ [nm']))].
    f_equal. by apply filter_update_entry.
  - induction es as [|[nm' n] es IHes]; simpl; [done|].
    case_bool_decide; simpl.
    + by rewrite is_dir_set_data, IH.
    + by rewrite IHes.
Qed.

Lemma discovery_store t p d :
  cs_paths (store t p d) = cs_paths t ∧ cs_files (store t p d) = cs_files t.
Proof.
  destruct t as [n|]; [|done]. unfold cs_paths, cs_files. simpl.
  by rewrite walk_set_data, rglob_cs_set_data.
Qed.

(** [X5] Processing a file leaves the search as it was: the directories,
    the names and the kinds of the entries are untouched, so both scripts
    find the same paths, in the same order, before and after. *)
Theorem process_keeps_discovery (rewrite : text → result text) (t : tree)
    (p : path) :
  cs_paths (process rewrite t p).2 = cs_paths t
  ∧ cs_files (process rewrite t p).2 = cs_files t.
Proof.
  destruct (process_tree rewrite t p) as [->|[d ->]]; [done|].
  apply discovery_store.
Qed.

(** ** Encoding and decoding back *)

Ltac Zify.zify_post_hook ::= Z.to_euclidean_division_equations.

Lemma to_N_byte_of n : (n < 256)%N → Byte.to_N (byte_of n) = n.
Proof.
  intros Hn. unfold byte_of. destruct (Byte.of_N n) as [b|] eqn:E; simpl.
  - by apply Byte.to_of_N.
  - apply Byte.of_N_None_iff in E. lia.
Qed.

Ltac decide_tests :=
  repeat (case_match; unbool; try lia).

Lemma utf8_decode_encode_char c bs rest :
  utf8_encode_char c = Some bs →
  utf8_decode (bs ++ rest) = cons c <$> utf8_decode rest.
Proof.
  unfold utf8_encode_char. intros H.
  destruct (c <? 128)%N eqn:H1; [|destruct (c <? 2048)%N eqn:H2;
    [|destruct (c <? 65536)%N eqn:H3;
      [destruct (in_range 55296 57343 c) eqn:H4; [done|]
      |destruct (c <? 1114112)%N eqn:H4; [|done]]]];
    simplify_eq; unbool; cbn [app utf8_decode];
    rewrite ?to_N_byte_of by lia.
  - decide_tests; done.
  - decide_tests; do 2 f_equal; lia.
  - decide_tests; do 2 f_equal; lia.
  - decide_tests; do 2 f_equal; lia.
  - decide_tests; do 2 f_equal; lia.
Qed.

Lemma utf8_decode_encode s d : utf8_encode s = Some d → utf8_decode d = Some s.
Proof.
  unfold utf8_encode. intros (ds & Hds & ->)%fmap_Some.
  apply mapM_Some in Hds.
  induction Hds as [|c bs s ds Hc _ IH]; [done|].
  change (mjoin (bs :: ds)) with (bs ++ mjoin ds).
  by rewrite (utf8_decode_encode_char c bs), IH.
Qed.

Lemma universal_newlines_id s :
  carriage_return ∉ s → universal_newlines s = s.
Proof.
  induction s as [|c s IH]; [done|].
  intros [Hc Hs]%not_elem_of_cons. simpl.
  rewrite bool_decide_eq_false_2 by done. by rewrite IH.
Qed.

Lemma universal_newlines_no_cr s :
  Forall (λ c, c ≠ carriage_return) (universal_newlines s).
Proof.
  remember (length s) as n eqn:Hn. revert s Hn.
  induction n as [n IH] using lt_wf_ind. intros s ->.
  destruct s as [|c s]; simpl; [done|].
  case_bool_decide.
  - constructor; [done|]. destruct s as [|c' s]; [by constructor|].
    case_bool_decide.
    + apply (IH (length s)); [simpl; lia|done].
    + apply (IH (length (c' :: s))); [simpl; lia|done].
  - constructor; [done|]. apply (IH (length s)); [simpl; lia|done].
Qed.

Lemma decode_no_cr d s :
  decode d = Ok s → Forall (λ c, c ≠ carriage_return) s.
Proof.
  unfold decode. destruct (utf8_decode d); [|done].
  intros ?; simplify_eq. apply universal_newlines_no_cr.
Qed.

(** What was encoded is decoded back, when it holds no carriage return. *)
Lemma decode_encode s d :
  Forall (λ c, c ≠ carriage_return) s → encode s = Ok d → decode d = Ok s.
Proof.
  unfold encode, decode. intros Hs Henc.
  destruct (utf8_encode s) as [d'|] eqn:E; [|done]. simplify_eq.
  rewrite (utf8_decode_encode _ _ E). f_equal.
  apply universal_newlines_id. rewrite Forall_forall in Hs.
  intros Hin. by apply (Hs _ Hin).
Qed.

Lemma literal_rules_no_cr :
  Forall (λ rule, Forall (λ c, c ≠ carriage_return) rule.2) literal_rules.
Proof. unfold literal_rules. repeat constructor; by vm_compute. Qed.

(** ** A second pass *)

Lemma process_after_true t p t' :
  process (apply_rules replacements) t p = (Ok true, t') →
  process (apply_rules replacements) t' p = (Ok false, t').
Proof.
  intros Hp. pose proof (process_cases t p) as H. rewrite Hp in H.
  destruct H as (s & s' & d' & Hread & Hrw & Hne & Henc & ->).
  destruct (read_text_inv _ _ _ Hread) as (d0 & w & m & Hstat & Hdec).
  rewrite apply_rules_literal in Hrw. simplify_eq.
  apply (process_unchanged _ _ _ (replace_each literal_rules s)).
  - unfold read_text, read_bytes.
    rewrite (stat_store_same t p d0 true w m d') by done. cbn [bind].
    apply decode_encode; [|done].
    apply replace_each_Forall; [apply literal_rules_no_cr|].
    by eapply decode_no_cr.
  - rewrite apply_rules_literal. f_equal.
    apply (replace_each_idemp semicolon), literal_rules_separated.
Qed.

(** [X6] A file that [fix_file] has rewritten is left alone by a second
    call: it returns false and the file stays as the first call wrote
    it. *)
Theorem fix_file_twice (w w' : world) (filepath : path) :
  fix_file w filepath = (true, w') → fix_file w' filepath = (false, w').
Proof.
  unfold fix_file.
  rewrite !(process_ext fix_file_rules (apply_rules replacements))
    by apply fix_file_rules_apply.
  destruct (process (apply_rules replacements) (files w) filepath)
    as [[[]|e] t'] eqn:Hp; intros ?; simplify_eq. cbn [files].
  rewrite (process_ext fix_file_rules (apply_rules replacements))
    by apply fix_file_rules_apply.
  by rewrite (process_after_true _ _ _ Hp).
Qed.

Lemma fix_file_twice_witness :
  let t := Some (Dir true
             [("A.cs"%string,
               File (list_byte_of_string
                       "using Core.Libraries.Application.Queries;")
                    true true None)]) in
  let w' := (fix_file (World t [] []) ["A.cs"%string]).2 in
  fix_file w' ["A.cs"%string] = (false, w').
Proof.
  intros t w'.
  apply (fix_file_twice (World t [] []) w' ["A.cs"%string]).
  vm_compute. reflexivity.
Defined.
(** * Whole runs *)


















(** * A second run *)













(** * The summary of a run *)



